(** * gmaisse.dev: the site configuration, the build configuration and the
      post frontmatter, embedded and checked.

    The repository is declarative: [app.config.ts] exports one nested object
    literal, [nuxt.config.ts] exports another, and each post under
    [content/] is a text file that opens with a YAML metadata block.  The
    embedding keeps that shape: typed records for the site configuration,
    association lists for the objects that are used as maps, and the post
    headers as the lines of text the files contain. *)

From Stdlib Require Import String Ascii List Bool Arith Lia.
From Stdlib Require Import Sorting.Sorted Sorting.Permutation.
Import ListNotations.
Local Open Scope string_scope.
Local Open Scope list_scope.
Local Open Scope nat_scope.
Set Warnings "-register-all".

(** ** Values of object literals *)

(** A value of an object literal, as far as the two configuration files use
    them inside map-like objects: strings, arrays of strings and nested
    objects.  Property order is the order of declaration. *)
Inductive js_value : Type :=
| JStr (s : string)
| JArr (items : list string)
| JObj (fields : list (string * js_value)).

Definition js_object : Type := list (string * js_value).

Fixpoint lookup {A : Type} (k : string) (o : list (string * A)) : option A :=
  match o with
  | [] => None
  | (k', v) :: rest => if String.eqb k k' then Some v else lookup k rest
  end.

Definition keys {A : Type} (o : list (string * A)) : list string :=
  map fst o.

Definition mem (k : string) (l : list string) : bool :=
  existsb (String.eqb k) l.

(** ** app.config.ts *)

Module Author.
Record t : Type := mk {
  username : string;
  default : bool;
  name : string;
  description : string;
  avatar : string;
  socials : js_object
}.
End Author.

Module MenuEntry.
Record t : Type := mk {
  name : string;
  path : string
}.
End MenuEntry.

Module Newsletter.
Record t : Type := mk {
  enabled : bool;
  form_action : string;
  provider : string
}.
End Newsletter.

Module Comments.
Record t : Type := mk {
  enabled : bool
}.
End Comments.

Module Robots.
Record t : Type := mk {
  UserAgent : string;
  Allow : list string
}.
End Robots.

Module SiteConfig.
Record t : Type := mk {
  logo : string;
  url : string;
  theme : string;
  name : string;
  description : string;
  socials : js_object;
  newsletter : Newsletter.t;
  comments : Comments.t;
  table_of_contents : bool;
  authors : list Author.t;
  menu : unit -> list MenuEntry.t;
  robots : list Robots.t
}.
End SiteConfig.

(** The author declared at app.config.ts:53-66. *)
Definition gmaisse : Author.t :=
  {| Author.username := "gmaisse";
     Author.default := true;
     Author.name := "Gaetan Maisse";
     Author.description := EmptyString;
     Author.avatar := "/images/portrait.jpg";
     Author.socials :=
       [ ("twitter", JStr "https://twitter.com/gaetanmaisse");
         ("twitter_username", JStr "gaetanmaisse");
         ("linkedin", JStr "https://www.linkedin.com/in/gaetanmaisse/");
         ("github", JStr "https://github.com/gaetanmaisse") ] |}.

(** The object passed to [defineAppConfig], app.config.ts:1-81.  The
    commented-out [avatar], [analytics] and [hyvor_talk] entries declare
    nothing. *)
Definition app_config : SiteConfig.t :=
  {| SiteConfig.logo := "/images/logo.svg";
     SiteConfig.url := "https://gaetanmaisse.github.io/gmaisse.dev/";
     SiteConfig.theme := "mistral";
     SiteConfig.name := "gmaisse.dev";
     SiteConfig.description :=
       "lorem ipsum dolor sit amet, consectetur adipiscing elit. Ut elit tellus, luctus nec ullamcorper mattis, pulvinar dapibus leo.";
     SiteConfig.socials :=
       [ ("twitter", JStr "https://twitter.com");
         ("youtube", JStr "https://youtube.com");
         ("linkedin", JStr "https://linkedin.com");
         ("facebook", JStr "https://facebook.com");
         ("instagram", JStr "https://instagram.com");
         ("github", JStr "https://github.com");
         ("sharing_networks",
          JArr [ "facebook"; "twitter"; "linkedin"; "email"; "pinterest";
                 "reddit"; "pocket"; "whatsapp"; "telegram"; "skype" ]) ];
     SiteConfig.newsletter :=
       {| Newsletter.enabled := true;
          Newsletter.form_action := "rssfeedpulse";
          Newsletter.provider :=
            "https://rssfeedpulse.com/api/campaign/996539cf-73e4-47b5-8d7c-2d7450174467/subscribe" |};
     SiteConfig.comments := {| Comments.enabled := false |};
     SiteConfig.table_of_contents := false;
     SiteConfig.authors := [ gmaisse ];
     SiteConfig.menu := fun _ =>
       [ {| MenuEntry.name := "Home"; MenuEntry.path := "/" |};
         {| MenuEntry.name := "Documentation"; MenuEntry.path := "/about" |};
         {| MenuEntry.name := "Archives"; MenuEntry.path := "/archives" |} ];
     SiteConfig.robots :=
       [ {| Robots.UserAgent := "*"; Robots.Allow := [ "/" ] |} ] |}.

(** The values [sharing_networks] may take, as listed in the comment at
    app.config.ts:29. *)
Inductive SharingNetwork : Type :=
| Facebook | Twitter | Linkedin | Email | Pinterest
| Reddit | Pocket | Whatsapp | Telegram | Skype.

Definition network_of_string (s : string) : option SharingNetwork :=
  if String.eqb s "facebook" then Some Facebook
  else if String.eqb s "twitter" then Some Twitter
  else if String.eqb s "linkedin" then Some Linkedin
  else if String.eqb s "email" then Some Email
  else if String.eqb s "pinterest" then Some Pinterest
  else if String.eqb s "reddit" then Some Reddit
  else if String.eqb s "pocket" then Some Pocket
  else if String.eqb s "whatsapp" then Some Whatsapp
  else if String.eqb s "telegram" then Some Telegram
  else if String.eqb s "skype" then Some Skype
  else None.

Definition string_of_network (n : SharingNetwork) : string :=
  match n with
  | Facebook => "facebook" | Twitter => "twitter" | Linkedin => "linkedin"
  | Email => "email" | Pinterest => "pinterest" | Reddit => "reddit"
  | Pocket => "pocket" | Whatsapp => "whatsapp" | Telegram => "telegram"
  | Skype => "skype"
  end.

Definition all_networks : list SharingNetwork :=
  [ Facebook; Twitter; Linkedin; Email; Pinterest;
    Reddit; Pocket; Whatsapp; Telegram; Skype ].

(** The [sharing_networks] array of a socials object; absent or not an
    array reads as no network. *)
Definition sharing_networks (o : js_object) : list string :=
  match lookup "sharing_networks" o with
  | Some (JArr l) => l
  | _ => []
  end.

(** The platform links of a socials object: every property but
    [sharing_networks]. *)
Definition social_links (o : js_object) : js_object :=
  filter (fun e => negb (String.eqb (fst e) "sharing_networks")) o.

(** A string is taken for a URL when it carries an http or https scheme. *)
Definition is_url (s : string) : bool :=
  String.prefix "https://" s || String.prefix "http://" s.

Definition value_is_url (v : js_value) : bool :=
  match v with
  | JStr s => is_url s
  | _ => false
  end.

(** A path is root-relative when it begins with a slash. *)
Definition root_relative (s : string) : bool := String.prefix "/" s.

(** ** nuxt.config.ts *)

(** The object passed to [defineNuxtConfig], nuxt.config.ts:2-13. *)
Definition nuxt_config : js_object :=
  [ ("extends", JArr [ "@bloggrify/core"; "@bloggrify/mistral" ]);
    ("app", JObj [ ("baseURL", JStr "/gmaisse.dev/") ]);
    ("compatibilityDate", JStr "2024-07-03") ].

(** ** The post files *)

Definition dquote : ascii := ascii_of_nat 34.

(** [quoted s] is [s] between two double-quote characters, as the scalars
    of the metadata blocks are written. *)
Definition quoted (s : string) : string :=
  String dquote (s ++ String dquote EmptyString)%string.

(** A line [key: "value"] of a metadata block. *)
Definition scalar_line (k v : string) : string :=
  (k ++ ": " ++ quoted v)%string.

Record post_file : Type := {
  file_path : string;
  lines : list string
}.

(** content/20240621/exhaustive-type-checking.md: the metadata block
    (lines 1-11) and the opening of the body (lines 12-13).  The rest of the
    body is prose that the metadata does not depend on
    ([parse_frontmatter_app]). *)
Definition exhaustive_type_checking : post_file :=
  {| file_path := "content/20240621/exhaustive-type-checking.md";
     lines :=
       [ "---";
         scalar_line "title" "Exhaustive Type Checking with Zod";
         scalar_line "description"
           "Embrace Exhaustive Type Checking with Zod's Discriminated Unions";
         scalar_line "date" "2024-02-20";
         "categories:";
         "  - blog";
         "tags:";
         "  - TypeScript";
         "  - Zod";
         scalar_line "cover" "covers/exhaustive-type-checking.jpg";
         "---";
         EmptyString;
         "As a TypeScript developer, ensuring that your code is robust and error-free is paramount. One of the most powerful tools" ] |}.

(** The second post (its file name is not recorded): the metadata block
    (lines 1-11) and the opening of the body (lines 12-13). *)
Definition parse_args_post : post_file :=
  {| file_path := "unnamed/part_000";
     lines :=
       [ "---";
         scalar_line "title" "Parsing Node.js Command-Line Arguments the Easy Way";
         scalar_line "description"
           "Learn how to parse command-line arguments in Node.js using built-in `parseArgs` function";
         scalar_line "date" "2024-07-03";
         "categories:";
         "  - blog";
         "tags:";
         "  - TypeScript";
         "  - Node.js";
         scalar_line "cover" "covers/node-parse-args.jpg";
         "---";
         EmptyString;
         "The ability to parse command-line arguments is essential for many Node.js applications. Whether you're building a CLI tool, a server application, or a script, handling command-line arguments efficiently can greatly enhance your application's usability and functionality." ] |}.

Definition posts : list post_file :=
  [ exhaustive_type_checking; parse_args_post ].

(** *** Reading a metadata block

    The blocks of the two posts use three line forms: [key: "scalar"],
    [key:] opening a sequence, and [  - item] adding to the sequence opened
    last.  The reader below accepts these forms and nothing else. *)

Inductive yaml_value : Type :=
| YScalar (s : string)
| YSeq (items : list string).

Definition frontmatter : Type := list (string * yaml_value).

Definition delimiter : string := "---".

(** The lines up to the closing delimiter, and the lines after it. *)
Fixpoint split_block (ls : list string) : option (list string * list string) :=
  match ls with
  | [] => None
  | l :: rest =>
      if String.eqb l delimiter then Some ([], rest)
      else match split_block rest with
           | Some (block, body) => Some (l :: block, body)
           | None => None
           end
  end.

Fixpoint drop_prefix (p s : string) : option string :=
  match p, s with
  | EmptyString, _ => Some s
  | String a p', String b s' =>
      if Ascii.eqb a b then drop_prefix p' s' else None
  | String _ _, EmptyString => None
  end.

(** The text before the first colon, and the text after it. *)
Fixpoint split_colon (s : string) : option (string * string) :=
  match s with
  | EmptyString => None
  | String c rest =>
      if Ascii.eqb c ":" then Some (EmptyString, rest)
      else match split_colon rest with
           | Some (k, v) => Some (String c k, v)
           | None => None
           end
  end.

(** [s] without its last character, when that is a double quote. *)
Fixpoint strip_closing (s : string) : option string :=
  match s with
  | EmptyString => None
  | String c rest =>
      match rest with
      | EmptyString => if Ascii.eqb c dquote then Some EmptyString else None
      | String _ _ => option_map (String c) (strip_closing rest)
      end
  end.

(** A double-quoted scalar loses its quotes; a plain one is kept. *)
Definition unquote (s : string) : string :=
  match s with
  | String c rest =>
      if Ascii.eqb c dquote then
        match strip_closing rest with
        | Some inner => inner
        | None => s
        end
      else s
  | EmptyString => s
  end.

(** The entries of a block, read line by line; [acc] holds the entries read
    so far, last first. *)
Fixpoint parse_entries (ls : list string) (acc : frontmatter) : option frontmatter :=
  match ls with
  | [] => Some (rev acc)
  | l :: rest =>
      match drop_prefix "  - " l with
      | Some item =>
          match acc with
          | (k, YSeq items) :: acc' =>
              parse_entries rest ((k, YSeq (items ++ [unquote item])) :: acc')
          | _ => None
          end
      | None =>
          match split_colon l with
          | Some (k, EmptyString) => parse_entries rest ((k, YSeq []) :: acc)
          | Some (k, String " " v) =>
              parse_entries rest ((k, YScalar (unquote v)) :: acc)
          | _ => None
          end
      end
  end.

(** The metadata of a file and its body: the file must open with the
    delimiter, and the block must be closed. *)
Definition parse_frontmatter (ls : list string) : option (frontmatter * list string) :=
  match ls with
  | first :: rest =>
      if String.eqb first delimiter then
        match split_block rest with
        | Some (block, body) =>
            match parse_entries block [] with
            | Some fm => Some (fm, body)
            | None => None
            end
        | None => None
        end
      else None
  | [] => None
  end.

Definition scalar (k : string) (fm : frontmatter) : option string :=
  match lookup k fm with
  | Some (YScalar s) => Some s
  | _ => None
  end.

Definition sequence (k : string) (fm : frontmatter) : option (list string) :=
  match lookup k fm with
  | Some (YSeq l) => Some l
  | _ => None
  end.

(** *** Calendar dates *)

Record Date : Type := {
  year : nat;
  month : nat;
  day : nat
}.

Definition digit (c : ascii) : option nat :=
  let n := nat_of_ascii c in
  if (48 <=? n) && (n <=? 57) then Some (n - 48) else None.

(** The number a string of decimal digits writes; [acc] is the value of the
    digits read so far. *)
Fixpoint number (s : string) (acc : nat) : option nat :=
  match s with
  | EmptyString => Some acc
  | String c rest =>
      match digit c with
      | Some d => number rest (10 * acc + d)
      | None => None
      end
  end.

Definition leap_year (y : nat) : bool :=
  ((y mod 4 =? 0) && negb (y mod 100 =? 0)) || (y mod 400 =? 0).

Definition days_in_month (y m : nat) : nat :=
  match m with
  | 1 | 3 | 5 | 7 | 8 | 10 | 12 => 31
  | 4 | 6 | 9 | 11 => 30
  | 2 => if leap_year y then 29 else 28
  | _ => 0
  end.

Definition valid_date (d : Date) : bool :=
  (1 <=? month d) && (month d <=? 12) &&
  (1 <=? day d) && (day d <=? days_in_month (year d) (month d)).

(** An ISO-8601 calendar date, [YYYY-MM-DD], that exists in the calendar. *)
Definition parse_date (s : string) : option Date :=
  if (String.length s =? 10)
     && String.eqb (substring 4 1 s) "-"
     && String.eqb (substring 7 1 s) "-"
  then
    match number (substring 0 4 s) 0,
          number (substring 5 2 s) 0,
          number (substring 8 2 s) 0 with
    | Some y, Some m, Some d =>
        let dt := {| year := y; month := m; day := d |} in
        if valid_date dt then Some dt else None
    | _, _, _ => None
    end
  else None.

(** Days are numbered so that a later date has a larger number. *)
Definition date_ord (d : Date) : nat :=
  (year d * 12 + (month d - 1)) * 31 + (day d - 1).

Definition date_le (a b : Date) : Prop := date_ord a <= date_ord b.

(** [a] comes before [b] in the calendar. *)
Definition date_before (a b : Date) : Prop :=
  year a < year b \/
  (year a = year b /\
   (month a < month b \/ (month a = month b /\ day a < day b))).

(** ** Reading the configuration *)

Definition default_authors (cfg : SiteConfig.t) : list Author.t :=
  filter Author.default (SiteConfig.authors cfg).

Definition default_count (cfg : SiteConfig.t) : nat :=
  length (default_authors cfg).

Definition find_author (cfg : SiteConfig.t) (u : string) : option Author.t :=
  find (fun a => String.eqb (Author.username a) u) (SiteConfig.authors cfg).

Definition default_author (cfg : SiteConfig.t) : option Author.t :=
  find Author.default (SiteConfig.authors cfg).

(** The username a post names as its author, if its metadata has an
    [author] key. *)
Definition author_ref (fm : frontmatter) : option string :=
  scalar "author" fm.

(** The settings the specification lists for the build configuration: the
    module extension order and the base deployment path (under [app]). *)
Definition spec_build_keys : list string := [ "extends"; "app" ].

(** ** The build, as the specification describes it

    Nothing in the repository resolves authors, validates metadata or orders
    posts: the framework the site extends does.  The definitions of this
    section follow the specification's description of that work. *)

Inductive build_error : Type :=
| NoFrontmatter (file : string)
| MissingKey (file key : string)
| MalformedDate (file : string)
| NoDefaultAuthor.

Inductive result (A : Type) : Type :=
| Ok (a : A)
| Err (e : build_error).

Arguments Ok {A} a.
Arguments Err {A} e.

Definition bind {A B : Type} (r : result A) (k : A -> result B) : result B :=
  match r with
  | Ok a => k a
  | Err e => Err e
  end.

Notation "x <- r ;; k" := (bind r (fun x => k))
  (at level 61, r at next level, right associativity).

Fixpoint mapM {A B : Type} (f : A -> result B) (l : list A) : result (list B) :=
  match l with
  | [] => Ok []
  | a :: rest => b <- f a ;; bs <- mapM f rest ;; Ok (b :: bs)
  end.

(** Modelled from the spec: the framework's author resolution, which the
    repository does not contain.  The specification gives it as "explicit
    reference, else default-flagged author, else error", and app.config.ts:50
    as "the default author will be used for all posts if no author is
    specified".  The three alternatives are tried in that order; a reference
    to a username that no author carries passes on to the next one. *)
Definition resolve_author (cfg : SiteConfig.t) (ref : option string) : result Author.t :=
  let explicit :=
    match ref with
    | Some u => find_author cfg u
    | None => None
    end in
  match explicit with
  | Some a => Ok a
  | None =>
      match default_author cfg with
      | Some d => Ok d
      | None => Err NoDefaultAuthor
      end
  end.

(** A post as the build hands it on. *)
Module Page.
Record t : Type := mk {
  path : string;
  meta : frontmatter;
  date : Date;
  author : Author.t;
  body : list string
}.
End Page.

(** The first of the keys [ks] that [fm] lacks. *)
Definition missing_key (ks : list string) (fm : frontmatter) : option string :=
  find (fun k => negb (mem k (keys fm))) ks.

Section Build.

(** The specification speaks of required metadata keys without listing
    them; the build takes the list as given. *)
Variable required : list string.
Variable cfg : SiteConfig.t.

(** Modelled from the spec: the framework's per-post checks, which the
    repository does not contain.  A file without a metadata block, a
    missing required key and a date that is not a calendar date each fail
    the build; the author is resolved last. *)
Definition build_post (f : post_file) : result Page.t :=
  match parse_frontmatter (lines f) with
  | None => Err (NoFrontmatter (file_path f))
  | Some (fm, body) =>
      match missing_key required fm with
      | Some k => Err (MissingKey (file_path f) k)
      | None =>
          match lookup "date" fm with
          | None => Err (MissingKey (file_path f) "date")
          | Some (YSeq _) => Err (MalformedDate (file_path f))
          | Some (YScalar s) =>
              match parse_date s with
              | None => Err (MalformedDate (file_path f))
              | Some d =>
                  a <- resolve_author cfg (author_ref fm) ;;
                  Ok (Page.mk (file_path f) fm d a body)
              end
          end
      end
  end.

(** Pages are ordered by insertion: [p] goes before the first page that
    is not older. *)
Fixpoint insert_page (p : Page.t) (l : list Page.t) : list Page.t :=
  match l with
  | [] => [p]
  | q :: rest =>
      if date_ord (Page.date p) <=? date_ord (Page.date q)
      then p :: l
      else q :: insert_page p rest
  end.

Definition sort_pages (l : list Page.t) : list Page.t :=
  fold_right insert_page [] l.

(** Modelled from the spec: the framework's build over the content files,
    which the repository does not contain.  Every post is checked, and the
    pages come out in chronological order. *)
Definition build (files : list post_file) : result (list Page.t) :=
  pages <- mapM build_post files ;;
  Ok (sort_pages pages).

End Build.

(** The [date] entry of a file's metadata is there and is not a calendar
    date. *)
Definition malformed_date (f : post_file) : bool :=
  match parse_frontmatter (lines f) with
  | Some (fm, _) =>
      match lookup "date" fm with
      | Some (YScalar s) =>
          match parse_date s with
          | Some _ => false
          | None => true
          end
      | Some (YSeq _) => true
      | None => false
      end
  | None => false
  end.

(** No page is followed by an older one. *)
Definition chronological (l : list Page.t) : Prop :=
  Sorted (fun p q => date_le (Page.date p) (Page.date q)) l.

(** ** Statements about the configuration *)

(** The example post of the specification's scenario: a title, the date
    2024-07-03, one category, and no author. *)
Definition scenario_frontmatter : frontmatter :=
  [ ("title", YScalar "X");
    ("date", YScalar "2024-07-03");
    ("categories", YSeq [ "blog" ]) ].

(** [cfg] with its authors list replaced. *)
Definition with_authors (cfg : SiteConfig.t) (l : list Author.t) : SiteConfig.t :=
  {| SiteConfig.logo := SiteConfig.logo cfg;
     SiteConfig.url := SiteConfig.url cfg;
     SiteConfig.theme := SiteConfig.theme cfg;
     SiteConfig.name := SiteConfig.name cfg;
     SiteConfig.description := SiteConfig.description cfg;
     SiteConfig.socials := SiteConfig.socials cfg;
     SiteConfig.newsletter := SiteConfig.newsletter cfg;
     SiteConfig.comments := SiteConfig.comments cfg;
     SiteConfig.table_of_contents := SiteConfig.table_of_contents cfg;
     SiteConfig.authors := l;
     SiteConfig.menu := SiteConfig.menu cfg;
     SiteConfig.robots := SiteConfig.robots cfg |}.

(** An author that is not the default one, known by its username alone. *)
Definition guest (u : string) : Author.t :=
  {| Author.username := u;
     Author.default := false;
     Author.name := u;
     Author.description := EmptyString;
     Author.avatar := EmptyString;
     Author.socials := [] |}.

(** The declared configuration with two guests around [gmaisse]: the
    default author is neither the first nor the last of the list. *)
Definition three_authors : SiteConfig.t :=
  with_authors app_config [ guest "alice"; gmaisse; guest "bob" ].

(** A post file that names its author. *)
Definition guest_post : post_file :=
  {| file_path := "content/guest.md";
     lines :=
       [ "---";
         scalar_line "title" "X";
         scalar_line "date" "2024-07-03";
         scalar_line "author" "bob";
         "---";
         "text" ] |}.

(** The platform names the site-level socials object declares. *)
Definition site_platforms : list string :=
  keys (social_links (SiteConfig.socials app_config)).

(** A property of a socials object names one of [platforms] and holds a
    URL. *)
Definition platform_link (platforms : list string) (e : string * js_value) : bool :=
  mem (fst e) platforms && value_is_url (snd e).

(** Every property of the site-level links and of every author's socials
    is a platform link, for the enum [platforms]. *)
Definition socials_are_platform_links (platforms : list string) (cfg : SiteConfig.t) : Prop :=
  Forall (fun e => platform_link platforms e = true)
         (social_links (SiteConfig.socials cfg)) /\
  Forall (fun a => Forall (fun e => platform_link platforms e = true) (Author.socials a))
         (SiteConfig.authors cfg).

(** An author's property is a platform link, or it is [twitter_username]
    holding a handle rather than a URL. *)
Definition author_social (platforms : list string) (e : string * js_value) : bool :=
  if String.eqb (fst e) "twitter_username"
  then negb (value_is_url (snd e))
  else platform_link platforms e.

(** The supported sharing networks, by name. *)
Definition supported_networks : list string :=
  map string_of_network all_networks.

(** ** Statements about the posts *)

(** The keys of a post's metadata block, in the order the posts write
    them. *)
Definition metadata_keys : list string :=
  [ "title"; "description"; "date"; "categories"; "tags"; "cover" ].

(** The shape of a post file: a delimited metadata block with the six keys,
    scalars for title, description, date and cover, sequences for categories
    and tags, an ISO-8601 calendar date, a cover path that is relative, and
    a body after the block. *)
Definition post_shape (f : post_file) : Prop :=
  exists block fm body,
    lines f = delimiter :: block ++ delimiter :: body /\
    ~ In delimiter block /\
    parse_frontmatter (lines f) = Some (fm, body) /\
    keys fm = metadata_keys /\
    (exists t, scalar "title" fm = Some t) /\
    (exists d, scalar "description" fm = Some d) /\
    (exists s d, scalar "date" fm = Some s /\ parse_date s = Some d) /\
    (exists l, sequence "categories" fm = Some l) /\
    (exists l, sequence "tags" fm = Some l) /\
    (exists c, scalar "cover" fm = Some c /\
               root_relative c = false /\ is_url c = false) /\
    body <> [].

(** The [date] scalar of a file's metadata. *)
Definition date_string (f : post_file) : option string :=
  match parse_frontmatter (lines f) with
  | Some (fm, _) => scalar "date" fm
  | None => None
  end.

(** The [cover] scalar of a file's metadata. *)
Definition cover_path (f : post_file) : option string :=
  match parse_frontmatter (lines f) with
  | Some (fm, _) => scalar "cover" fm
  | None => None
  end.

(** A post file whose date, the 30th of February, is not in the
    calendar. *)
Definition misdated_post : post_file :=
  {| file_path := "content/misdated.md";
     lines :=
       [ "---";
         scalar_line "title" "X";
         scalar_line "date" "2024-02-30";
         "---";
         "text" ] |}.

(** ** The manual argument parser shown in the second post

    The script at part_000:24-46 reads [process.argv] into two objects,
    [flags] and [options].  Strings stand for JavaScript strings, one
    character per code unit. *)

Module ManualArgs.

(** What the script stores in its objects: [true], or an argument. *)
Inductive value : Type :=
| VTrue
| VString (s : string).

(** An object, by its own properties. *)
Definition object : Type := list (string * value).

(** [o] with own property [k] set to [v].  Properties are read with
    [lookup]; the order of the list is not the order in which JavaScript
    enumerates them. *)
Fixpoint update (k : string) (v : value) (o : object) : object :=
  match o with
  | [] => [ (k, v) ]
  | (k', v') :: rest =>
      if String.eqb k k' then (k, v) :: rest
      else (k', v') :: update k v rest
  end.

(** [o[k] = v] on an object made by [{}].  The key [__proto__] reaches the
    setter inherited from [Object.prototype], which ignores a value that is
    neither an object nor null: nothing is stored. *)
Definition assign (k : string) (v : value) (o : object) : object :=
  if String.eqb k "__proto__" then o else update k v o.

(** [o] has an own property [k]. *)
Definition own (k : string) (o : object) : bool :=
  match lookup k o with
  | Some _ => true
  | None => false
  end.

(** [s.slice(n)] for [n] at or above zero: [s] without its first [n]
    characters. *)
Fixpoint slice (n : nat) (s : string) : string :=
  match n, s with
  | 0, _ => s
  | S n', String _ rest => slice n' rest
  | S _, EmptyString => EmptyString
  end.

(** [s.split('')]: the characters of [s], each as a string. *)
Definition split_chars (s : string) : list string :=
  map (fun c => String c EmptyString) (list_ascii_of_string s).

(** The variable [currentOption]: declared without a value at line 28, set
    to a string at line 32 and to [null] at line 40. *)
Inductive current : Type :=
| Undefined
| Null
| Name (s : string).

(** The test [if (currentOption)]: only a non-empty string passes. *)
Definition truthy (c : current) : bool :=
  match c with
  | Name s => negb (String.eqb s EmptyString)
  | _ => false
  end.

Record state : Type := mk {
  flags : object;
  options : object;
  currentOption : current
}.

(** Lines 26-28. *)
Definition init : state :=
  {| flags := []; options := []; currentOption := Undefined |}.

(** Lines 35-37: every character of the group becomes a flag. *)
Definition set_flags (group : string) (fl : object) : object :=
  fold_left (fun acc flag => assign flag VTrue acc) (split_chars group) fl.

(** The body of the [forEach] callback, lines 31-41. *)
Definition step (st : state) (arg : string) : state :=
  if String.prefix "--" arg then
    {| flags := flags st;
       options := assign (slice 2 arg) VTrue (options st);
       currentOption := Name (slice 2 arg) |}
  else if String.prefix "-" arg then
    {| flags := set_flags (slice 1 arg) (flags st);
       options := options st;
       currentOption := currentOption st |}
  else
    match currentOption st with
    | Name s =>
        if truthy (Name s) then
          {| flags := flags st;
             options := assign s (VString arg) (options st);
             currentOption := Null |}
        else st
    | _ => st
    end.

(** [args.forEach], lines 30-42, from a given state. *)
Definition run (st : state) (args : list string) : state :=
  fold_left step args st.

(** The whole script: [process.argv.slice(2)] at line 25, then the loop. *)
Definition parse (argv : list string) : state :=
  run init (skipn 2 argv).

(** An argument that names an option, [--k]. *)
Definition dashed (k : string) : string := ("--" ++ k)%string.

(** An argument read as a group of flags: one dash, not two. *)
Definition flag_group (arg : string) : bool :=
  String.prefix "-" arg && negb (String.prefix "--" arg).

(** An argument that starts with no dash. *)
Definition positional (arg : string) : bool :=
  negb (String.prefix "-" arg).

End ManualArgs.

(** ** The exhaustive switch shown in the first post

    [handleContent] and [assertNever], exhaustive-type-checking.md:66-82,
    on a content object given by its own properties, each holding a
    primitive value. *)

Module Exhaustive.

Section Values.

(** Numbers are carried along and never computed with. *)
Variable number : Type.

Inductive value : Type :=
| Undefined
| Null
| Boolean (b : bool)
| Number (n : number)
| Str (s : string).

Definition object : Type := list (string * value).

Inductive exception : Type :=
| Error (message : string)
| TypeError.

Inductive completion : Type :=
| Normal
| Throw (e : exception).

(** The template literal of line 81 on an object whose properties hold no
    function: an own [toString] is not callable and, [valueOf] giving back
    the object, the conversion fails; otherwise the inherited [toString]
    answers. *)
Definition to_string (o : object) : option string :=
  if mem "toString" (keys o) then None else Some "[object Object]".

(** Lines 80-82. *)
Definition assertNever (v : object) : completion :=
  match to_string v with
  | Some s => Throw (Error ("Unhandled value: " ++ s)%string)
  | None => Throw TypeError
  end.

(** Lines 66-78: [switch] compares [content.type] with [===]. *)
Definition handleContent (content : object) : completion :=
  match lookup "type" content with
  | Some (Str t) =>
      if String.eqb t "text" then Normal
      else if String.eqb t "image" then Normal
      else assertNever content
  | _ => assertNever content
  end.

End Values.

End Exhaustive.

(** * Properties *)

(** ** Helper lemmas: lists and lookups *)

Lemma mem_In (k : string) (l : list string) : mem k l = true <-> In k l.
Proof.
  unfold mem. rewrite existsb_exists. split.
  - intros [x [Hin Heq]]. apply String.eqb_eq in Heq. now subst.
  - intros Hin. exists k. split; [assumption | apply String.eqb_refl].
Qed.

(** A list whose filter has one element has one element passing the test. *)
Lemma filter_singleton {A : Type} (f : A -> bool) (l : list A) (d : A) :
  filter f l = [d] ->
  In d l /\ f d = true /\ forall a, In a l -> f a = true -> a = d.
Proof.
  intros Hf.
  assert (Hd : In d (filter f l)) by (rewrite Hf; now left).
  apply filter_In in Hd. destruct Hd as [Hin Hfd].
  repeat split; try assumption.
  intros a Ha Hfa.
  assert (Hin' : In a (filter f l)) by (apply filter_In; now split).
  rewrite Hf in Hin'. destruct Hin' as [-> | []]. reflexivity.
Qed.

(** [find] returns the head of the filtered list. *)
Lemma find_filter {A : Type} (f : A -> bool) (l : list A) :
  find f l = hd_error (filter f l).
Proof.
  induction l as [| a rest IH]; simpl; [reflexivity |].
  destruct (f a); simpl; [reflexivity | exact IH].
Qed.

(** ** The authors of the site configuration *)

(** With exactly one default author, the fallback for a post that names no
    author is well defined: it is that author, and no other author of the
    list is flagged. *)
Lemma unique_default_resolves (cfg : SiteConfig.t) :
  default_count cfg = 1 ->
  exists d,
    resolve_author cfg None = Ok d /\
    In d (SiteConfig.authors cfg) /\
    Author.default d = true /\
    forall a, In a (SiteConfig.authors cfg) -> Author.default a = true -> a = d.
Proof.
  unfold default_count, default_authors. intros Hlen.
  destruct (filter Author.default (SiteConfig.authors cfg)) as [| d [| ? ?]] eqn:Hf;
    simpl in Hlen; try discriminate.
  exists d. split.
  - unfold resolve_author, default_author. rewrite find_filter, Hf. reflexivity.
  - now apply filter_singleton.
Qed.

(** With no default author, a post that names no author fails to resolve. *)
Lemma no_default_fails (cfg : SiteConfig.t) :
  default_count cfg = 0 ->
  resolve_author cfg None = Err NoDefaultAuthor.
Proof.
  unfold default_count, default_authors, resolve_author, default_author.
  intros Hlen. rewrite find_filter.
  destruct (filter Author.default (SiteConfig.authors cfg)); [reflexivity | discriminate].
Qed.

(** C1. In the declared site configuration at most one author is flagged
    default; the authors list being non-empty, exactly one is; and the list
    holds exactly one author, [gmaisse], whose default flag is true. *)
Theorem authors_one_default :
  default_count app_config <= 1 /\
  (SiteConfig.authors app_config <> [] -> default_count app_config = 1) /\
  (exists a,
     SiteConfig.authors app_config = [a] /\
     Author.username a = "gmaisse" /\
     Author.default a = true).
Proof.
  split; [| split].
  - unfold default_count, default_authors. simpl. lia.
  - intros _. reflexivity.
  - exists gmaisse. repeat split.
Qed.

Lemma authors_one_default_witness :
  SiteConfig.authors app_config <> [] /\ default_count app_config = 1.
Proof.
  split.
  - discriminate.
  - apply authors_one_default. discriminate.
Defined.

(** ** Author resolution *)

Lemma find_first {A : Type} (f : A -> bool) (l : list A) :
  (exists a, In a l /\ f a = true) ->
  exists a, find f l = Some a /\ In a l /\ f a = true.
Proof.
  intros [a [Hin Hfa]]. destruct (find f l) as [b |] eqn:Hfind.
  - exists b. split; [reflexivity |]. now apply find_some in Hfind.
  - rewrite (find_none f l Hfind a Hin) in Hfa. discriminate.
Qed.

Lemma find_nothing {A : Type} (f : A -> bool) (l : list A) :
  (forall a, In a l -> f a = false) -> find f l = None.
Proof.
  intros Hall. destruct (find f l) as [b |] eqn:Hfind; [| reflexivity].
  apply find_some in Hfind. destruct Hfind as [Hin Hfb].
  rewrite (Hall b Hin) in Hfb. discriminate.
Qed.

(** C2. A post whose metadata names an author that the configuration has
    resolves to an author of the list with that username; a post whose
    metadata has no [author] key resolves to an author of the list that is
    flagged default, when there is one, and to an error when there is none.
    Under the declared configuration both posts of the repository, whose
    metadata has no [author] key, and the post of the specification's
    scenario resolve to [gmaisse]. *)
Theorem resolve_author_order :
  (forall cfg fm u,
      lookup "author" fm = Some (YScalar u) ->
      (exists a, In a (SiteConfig.authors cfg) /\ Author.username a = u) ->
      exists a,
        resolve_author cfg (author_ref fm) = Ok a /\
        In a (SiteConfig.authors cfg) /\
        Author.username a = u) /\
  (forall cfg fm,
      lookup "author" fm = None ->
      (exists d, In d (SiteConfig.authors cfg) /\ Author.default d = true) ->
      exists d,
        resolve_author cfg (author_ref fm) = Ok d /\
        In d (SiteConfig.authors cfg) /\
        Author.default d = true) /\
  (forall cfg fm,
      lookup "author" fm = None ->
      (forall a, In a (SiteConfig.authors cfg) -> Author.default a = false) ->
      resolve_author cfg (author_ref fm) = Err NoDefaultAuthor) /\
  (forall f, In f posts ->
      exists fm body,
        parse_frontmatter (lines f) = Some (fm, body) /\
        lookup "author" fm = None /\
        resolve_author app_config (author_ref fm) = Ok gmaisse) /\
  (exists fm body,
      parse_frontmatter (lines parse_args_post) = Some (fm, body) /\
      scalar "date" fm = Some "2024-07-03" /\
      author_ref fm = None) /\
  (author_ref scenario_frontmatter = None /\
   resolve_author app_config (author_ref scenario_frontmatter) = Ok gmaisse /\
   Author.username gmaisse = "gmaisse" /\
   Author.default gmaisse = true).
Proof.
  split; [| split; [| split; [| split; [| split]]]].
  - intros cfg fm u Hkey [a [Hin Hname]].
    destruct (find_first (fun x => String.eqb (Author.username x) u)
                (SiteConfig.authors cfg)) as [b [Hfind [Hb Hbu]]].
    { exists a. split; [exact Hin | now apply String.eqb_eq]. }
    exists b. unfold resolve_author, author_ref, scalar, find_author.
    rewrite Hkey, Hfind. apply String.eqb_eq in Hbu. now repeat split.
  - intros cfg fm Hkey Hdefault.
    destruct (find_first Author.default (SiteConfig.authors cfg) Hdefault)
      as [d [Hfind [Hd Hflag]]].
    exists d. unfold resolve_author, author_ref, scalar, default_author.
    rewrite Hkey, Hfind. now repeat split.
  - intros cfg fm Hkey Hnone.
    unfold resolve_author, author_ref, scalar, default_author.
    now rewrite Hkey, (find_nothing _ _ Hnone).
  - intros f [<- | [<- | []]]; do 2 eexists; repeat split.
  - do 2 eexists; repeat split.
  - repeat split.
Qed.

Lemma resolve_author_order_witness :
  (exists fm body,
     parse_frontmatter (lines guest_post) = Some (fm, body) /\
     lookup "author" fm = Some (YScalar "bob") /\
     resolve_author three_authors (author_ref fm) = Ok (guest "bob") /\
     exists a,
       resolve_author three_authors (author_ref fm) = Ok a /\
       In a (SiteConfig.authors three_authors) /\
       Author.username a = "bob") /\
  (lookup "author" scenario_frontmatter = None /\
   resolve_author three_authors (author_ref scenario_frontmatter) = Ok gmaisse /\
   exists d,
     resolve_author three_authors (author_ref scenario_frontmatter) = Ok d /\
     In d (SiteConfig.authors three_authors) /\
     Author.default d = true) /\
  (resolve_author (with_authors app_config [ guest "alice"; guest "bob" ])
     (author_ref scenario_frontmatter) = Err NoDefaultAuthor) /\
  (In parse_args_post posts /\
   exists fm body,
     parse_frontmatter (lines parse_args_post) = Some (fm, body) /\
     lookup "author" fm = None /\
     resolve_author app_config (author_ref fm) = Ok gmaisse).
Proof.
  destruct resolve_author_order as [Hexp [Hdef [Herr [Hposts _]]]].
  split; [| split; [| split]].
  - do 2 eexists. split; [reflexivity |]. split; [reflexivity |].
    split; [reflexivity |].
    apply Hexp; [reflexivity |].
    exists (guest "bob"). split; [right; right; left; reflexivity | reflexivity].
  - split; [reflexivity |]. split; [reflexivity |].
    apply Hdef; [reflexivity |].
    exists gmaisse. split; [right; left; reflexivity | reflexivity].
  - apply Herr; [reflexivity |].
    intros a [<- | [<- | []]]; reflexivity.
  - split; [right; left; reflexivity | apply Hposts; right; left; reflexivity].
Defined.

(** ** Social links *)

(** C3, as stated, fails: whatever the enum of platforms, the author's
    [twitter_username] property holds the handle [gaetanmaisse], which is
    not a URL. *)
Lemma socials_not_all_urls :
  ~ exists platforms, socials_are_platform_links platforms app_config.
Proof.
  intros [platforms [_ Hauthors]].
  apply Forall_inv in Hauthors.
  apply Forall_inv_tail in Hauthors.
  apply Forall_inv in Hauthors.
  unfold platform_link in Hauthors.
  apply andb_true_iff in Hauthors. destruct Hauthors as [_ Hurl].
  discriminate Hurl.
Qed.

(** C3, amended.  The site-level socials object declares, besides
    [sharing_networks], the six platforms twitter, youtube, linkedin,
    facebook, instagram and github, each with a URL; every property of every
    author's socials is one of these platforms with a URL, except
    [twitter_username], which holds a handle that is not a URL: it has no
    scheme, not even a colon. *)
Theorem socials_platform_links :
  site_platforms =
    [ "twitter"; "youtube"; "linkedin"; "facebook"; "instagram"; "github" ] /\
  Forall (fun e => platform_link site_platforms e = true)
         (social_links (SiteConfig.socials app_config)) /\
  Forall (fun a => Forall (fun e => author_social site_platforms e = true)
                          (Author.socials a))
         (SiteConfig.authors app_config) /\
  lookup "twitter_username" (Author.socials gmaisse) = Some (JStr "gaetanmaisse") /\
  is_url "gaetanmaisse" = false /\
  split_colon "gaetanmaisse" = None.
Proof.
  split; [reflexivity |].
  split; [repeat constructor |].
  split; [repeat constructor |].
  repeat split.
Qed.

(** ** Sharing networks *)

Lemma network_of_string_of_network (n : SharingNetwork) :
  network_of_string (string_of_network n) = Some n.
Proof. destruct n; reflexivity. Qed.

Lemma string_of_network_of_string (s : string) (n : SharingNetwork) :
  network_of_string s = Some n -> string_of_network n = s.
Proof.
  unfold network_of_string.
  repeat match goal with
         | |- context [String.eqb s ?k] =>
             destruct (String.eqb_spec s k) as [-> | _];
             [intros [= <-]; reflexivity |]
         end.
  discriminate.
Qed.

(** A string names a supported network exactly when it is in the list of
    the ten names. *)
Lemma supported_networks_spec (s : string) :
  In s supported_networks <-> exists n, network_of_string s = Some n.
Proof.
  split.
  - unfold supported_networks. rewrite in_map_iff.
    intros [n [<- _]]. exists n. apply network_of_string_of_network.
  - intros [n Hn]. apply string_of_network_of_string in Hn. subst s.
    apply in_map. destruct n; simpl; tauto.
Qed.

(** C4. Every entry of [socials.sharing_networks] in the declared
    configuration is one of the ten supported networks; the array lists
    each of them once, in the order of the enum. *)
Theorem sharing_networks_supported :
  Forall (fun s => exists n, network_of_string s = Some n)
         (sharing_networks (SiteConfig.socials app_config)) /\
  Forall (fun s => In s [ "facebook"; "twitter"; "linkedin"; "email"; "pinterest";
                          "reddit"; "pocket"; "whatsapp"; "telegram"; "skype" ])
         (sharing_networks (SiteConfig.socials app_config)) /\
  sharing_networks (SiteConfig.socials app_config) = supported_networks.
Proof.
  split; [| split].
  - apply Forall_forall. intros s Hs. apply supported_networks_spec. exact Hs.
  - apply Forall_forall. intros s Hs. exact Hs.
  - reflexivity.
Qed.

(** ** Newsletter *)

(** C5. A newsletter record is made of its [enabled] flag, its
    [form_action] and its [provider], and nothing else; in the declared
    configuration the flag is true, both strings are non-empty, and the
    provider is a URL. *)
Theorem newsletter_declared :
  (forall n : Newsletter.t,
      n = Newsletter.mk (Newsletter.enabled n) (Newsletter.form_action n)
                        (Newsletter.provider n)) /\
  Newsletter.enabled (SiteConfig.newsletter app_config) = true /\
  Newsletter.form_action (SiteConfig.newsletter app_config) = "rssfeedpulse" /\
  Newsletter.form_action (SiteConfig.newsletter app_config) <> EmptyString /\
  Newsletter.provider (SiteConfig.newsletter app_config) <> EmptyString /\
  is_url (Newsletter.provider (SiteConfig.newsletter app_config)) = true.
Proof.
  split; [intros []; reflexivity |].
  repeat split; discriminate.
Qed.

(** ** The metadata reader *)

Lemma split_block_spec (ls block body : list string) :
  split_block ls = Some (block, body) ->
  ls = block ++ delimiter :: body /\ ~ In delimiter block.
Proof.
  revert block. induction ls as [| l rest IH]; intros block; simpl; [discriminate |].
  destruct (String.eqb_spec l delimiter) as [-> | Hne].
  - intros [= <- <-]. split; [reflexivity | intros []].
  - destruct (split_block rest) as [[b bd] |] eqn:Hrest; [| discriminate].
    intros [= <- <-]. destruct (IH b eq_refl) as [-> Hnot].
    split; [reflexivity |].
    intros [Heq | Hin]; [now apply Hne | now apply Hnot].
Qed.

Lemma split_block_app (ls more block body : list string) :
  split_block ls = Some (block, body) ->
  split_block (ls ++ more) = Some (block, body ++ more).
Proof.
  revert block. induction ls as [| l rest IH]; intros block; simpl; [discriminate |].
  destruct (String.eqb l delimiter).
  - now intros [= <- <-].
  - destruct (split_block rest) as [[b bd] |]; [| discriminate].
    intros [= <- <-]. now rewrite (IH b eq_refl).
Qed.

(** A file the reader accepts opens with the delimiter, and its block runs
    to the next delimiter. *)
Lemma parse_frontmatter_spec (ls : list string) (fm : frontmatter) (body : list string) :
  parse_frontmatter ls = Some (fm, body) ->
  exists block,
    ls = delimiter :: block ++ delimiter :: body /\
    ~ In delimiter block /\
    parse_entries block [] = Some fm.
Proof.
  destruct ls as [| first rest]; simpl; [discriminate |].
  destruct (String.eqb_spec first delimiter) as [-> | _]; [| discriminate].
  destruct (split_block rest) as [[block bd] |] eqn:Hsplit; [| discriminate].
  destruct (parse_entries block []) as [fm' |] eqn:Hentries; [| discriminate].
  intros [= <- <-]. exists block.
  apply split_block_spec in Hsplit. destruct Hsplit as [-> Hnot].
  now repeat split.
Qed.

(** What follows the block does not change the metadata: the lines added
    to a file are added to its body. *)
Lemma parse_frontmatter_app (ls more : list string) (fm : frontmatter) (body : list string) :
  parse_frontmatter ls = Some (fm, body) ->
  parse_frontmatter (ls ++ more) = Some (fm, body ++ more).
Proof.
  destruct ls as [| first rest]; simpl; [discriminate |].
  destruct (String.eqb first delimiter); [| discriminate].
  destruct (split_block rest) as [[block bd] |] eqn:Hsplit; [| discriminate].
  rewrite (split_block_app _ more _ _ Hsplit).
  destruct (parse_entries block []); [| discriminate].
  now intros [= <- <-].
Qed.

(** Reads the block of [f] and checks each part of [post_shape] on the
    result. *)
Ltac shape_of f :=
  let fm := fresh "fm" in
  let body := fresh "body" in
  let block := fresh "block" in
  let Hparse := fresh "Hparse" in
  let Hlines := fresh "Hlines" in
  let Hnot := fresh "Hnot" in
  destruct (parse_frontmatter (lines f)) as [[fm body] |] eqn:Hparse;
    [| discriminate Hparse];
  destruct (parse_frontmatter_spec _ _ _ Hparse) as [block [Hlines [Hnot _]]];
  exists block, fm, body;
  split; [exact Hlines |];
  split; [exact Hnot |];
  split; [exact Hparse |];
  vm_compute in Hparse; injection Hparse as <- <-;
  repeat split;
    try discriminate;
    try (eexists; reflexivity);
    repeat eexists.

(** C6. Both post files of the repository open with a delimited metadata
    block that holds the keys title, description, date, categories, tags and
    cover: title, description and cover as scalars, the date as an ISO-8601
    calendar date, categories and tags as sequences, the cover as a relative
    path; the block is followed by the body. *)
Theorem posts_have_metadata (f : post_file) :
  In f posts -> post_shape f.
Proof.
  intros [<- | [<- | []]].
  - shape_of exhaustive_type_checking.
  - shape_of parse_args_post.
Qed.

Lemma posts_have_metadata_witness :
  In exhaustive_type_checking posts /\ post_shape exhaustive_type_checking.
Proof.
  split.
  - left. reflexivity.
  - apply posts_have_metadata. left. reflexivity.
Defined.

(** ** Calendar dates *)

Lemma parse_date_valid (s : string) (d : Date) :
  parse_date s = Some d -> valid_date d = true.
Proof.
  unfold parse_date.
  destruct (_ && _ && _); [| discriminate].
  destruct (number _ 0) as [y |]; [| discriminate].
  destruct (number _ 0) as [m |]; [| discriminate].
  destruct (number _ 0) as [dd |]; [| discriminate].
  destruct (valid_date _) eqn:Hvalid; [| discriminate].
  now intros [= <-].
Qed.

Lemma valid_date_bounds (d : Date) :
  valid_date d = true ->
  1 <= month d <= 12 /\ 1 <= day d <= 31.
Proof.
  unfold valid_date. rewrite !andb_true_iff, !Nat.leb_le.
  intros [[[Hm1 Hm12] Hd1] Hd].
  assert (Hdays : days_in_month (year d) (month d) <= 31).
  { unfold days_in_month.
    destruct (month d) as [| [| [| [| [| [| [| [| [| [| [| [| [| ?]]]]]]]]]]]]];
      try destruct (leap_year (year d)); lia. }
  lia.
Qed.

(** On dates of the calendar, the day numbering follows the calendar. *)
Lemma date_ord_before (a b : Date) :
  valid_date a = true -> valid_date b = true ->
  (date_ord a < date_ord b <-> date_before a b).
Proof.
  intros Ha Hb.
  apply valid_date_bounds in Ha. apply valid_date_bounds in Hb.
  unfold date_ord, date_before. lia.
Qed.

(** ** The build *)

Lemma mapM_fails {A B : Type} (f : A -> result B) (l : list A) (a : A) :
  In a l -> (exists e, f a = Err e) -> exists e, mapM f l = Err e.
Proof.
  intros Hin [e He]. induction l as [| x rest IH]; [destruct Hin |].
  simpl. destruct Hin as [-> | Hin].
  - rewrite He. now exists e.
  - destruct (f x) as [b | e']; simpl; [| now exists e'].
    destruct (IH Hin) as [e' ->]. now exists e'.
Qed.

Lemma mapM_Forall2 {A B : Type} (f : A -> result B) (l : list A) (bs : list B) :
  mapM f l = Ok bs -> Forall2 (fun a b => f a = Ok b) l bs.
Proof.
  revert bs. induction l as [| x rest IH]; intros bs; simpl.
  - intros [= <-]. constructor.
  - destruct (f x) as [b |] eqn:Hx; simpl; [| discriminate].
    destruct (mapM f rest) as [bs' |]; simpl; [| discriminate].
    intros [= <-]. constructor; [exact Hx | now apply IH].
Qed.

Section BuildProperties.

Variable required : list string.
Variable cfg : SiteConfig.t.

Lemma build_post_malformed (f : post_file) :
  malformed_date f = true ->
  exists e, build_post required cfg f = Err e.
Proof.
  unfold malformed_date, build_post.
  destruct (parse_frontmatter (lines f)) as [[fm body] |]; [| discriminate].
  destruct (missing_key required fm) as [k |]; [now eexists |].
  destruct (lookup "date" fm) as [[s | items] |]; [| now eexists | discriminate].
  destruct (parse_date s); [discriminate | now eexists].
Qed.

(** A page the build hands on carries the path of its file, every required
    key, the date its metadata writes, a date of the calendar, and the
    author its metadata resolves to. *)
Lemma build_post_ok (f : post_file) (p : Page.t) :
  build_post required cfg f = Ok p ->
  Page.path p = file_path f /\
  (forall k, In k required -> In k (keys (Page.meta p))) /\
  (exists s, date_string f = Some s /\ parse_date s = Some (Page.date p)) /\
  valid_date (Page.date p) = true /\
  resolve_author cfg (author_ref (Page.meta p)) = Ok (Page.author p).
Proof.
  unfold build_post, date_string, scalar.
  destruct (parse_frontmatter (lines f)) as [[fm body] |]; [| discriminate].
  destruct (missing_key required fm) as [k |] eqn:Hkeys; [discriminate |].
  destruct (lookup "date" fm) as [[s | items] |]; try discriminate.
  destruct (parse_date s) as [d |] eqn:Hd; [| discriminate].
  destruct (resolve_author cfg (author_ref fm)) as [a |] eqn:Ha; [| discriminate].
  simpl. intros [= <-]. simpl. repeat split; try assumption.
  - intros k Hk. apply mem_In.
    apply (find_none _ _ Hkeys) in Hk. now apply negb_false_iff in Hk.
  - now exists s.
  - now apply parse_date_valid with s.
Qed.

Lemma insert_page_perm (p : Page.t) (l : list Page.t) :
  Permutation (p :: l) (insert_page p l).
Proof.
  induction l as [| q rest IH]; simpl; [reflexivity |].
  destruct (date_ord (Page.date p) <=? date_ord (Page.date q)); [reflexivity |].
  rewrite perm_swap. now apply perm_skip.
Qed.

Lemma sort_pages_perm (l : list Page.t) : Permutation l (sort_pages l).
Proof.
  induction l as [| p rest IH]; simpl; [reflexivity |].
  rewrite <- insert_page_perm. now apply perm_skip.
Qed.

Lemma insert_page_hd (p q : Page.t) (l : list Page.t) :
  date_le (Page.date q) (Page.date p) ->
  HdRel (fun x y => date_le (Page.date x) (Page.date y)) q l ->
  HdRel (fun x y => date_le (Page.date x) (Page.date y)) q (insert_page p l).
Proof.
  intros Hqp Hhd. destruct l as [| r rest]; simpl.
  - now constructor.
  - destruct (date_ord (Page.date p) <=? date_ord (Page.date r)).
    + now constructor.
    + constructor. now inversion Hhd.
Qed.

Lemma insert_page_chronological (p : Page.t) (l : list Page.t) :
  chronological l -> chronological (insert_page p l).
Proof.
  unfold chronological. induction l as [| q rest IH]; simpl; intros Hs.
  - repeat constructor.
  - destruct (Nat.leb_spec (date_ord (Page.date p)) (date_ord (Page.date q))) as [Hle | Hgt].
    + constructor; [exact Hs | now constructor].
    + inversion Hs as [| ? ? Hrest Hhd]; subst.
      constructor; [now apply IH |].
      apply insert_page_hd; [unfold date_le; lia | exact Hhd].
Qed.

Lemma sort_pages_chronological (l : list Page.t) : chronological (sort_pages l).
Proof.
  induction l as [| p rest IH]; simpl.
  - constructor.
  - now apply insert_page_chronological.
Qed.

(** A build that succeeds hands on one page per file, in chronological
    order, each with a date of the calendar. *)
Lemma build_ok (files : list post_file) (pages : list Page.t) :
  build required cfg files = Ok pages ->
  chronological pages /\
  length pages = length files /\
  Forall (fun p => valid_date (Page.date p) = true) pages.
Proof.
  unfold build.
  destruct (mapM (build_post required cfg) files) as [built |] eqn:Hbuilt;
    simpl; [| discriminate].
  intros [= <-]. apply mapM_Forall2 in Hbuilt.
  split; [apply sort_pages_chronological |]. split.
  - rewrite <- (Permutation_length (sort_pages_perm built)).
    symmetry. now apply Forall2_length with (1 := Hbuilt).
  - apply Permutation_Forall with (1 := sort_pages_perm built).
    clear - Hbuilt. induction Hbuilt as [| f p fs ps Hfp _ IH]; constructor.
    + now apply build_post_ok in Hfp.
    + exact IH.
Qed.

Lemma build_malformed (files : list post_file) (f : post_file) :
  In f files -> malformed_date f = true ->
  exists e, build required cfg files = Err e.
Proof.
  intros Hin Hbad. unfold build.
  destruct (mapM_fails (build_post required cfg) files f Hin
              (build_post_malformed f Hbad)) as [e ->].
  now exists e.
Qed.

End BuildProperties.

(** ** Post dates *)

(** C7. The date of every post of the repository parses as a date of the
    calendar, the two posts carrying 2024-02-20 and 2024-07-03.  A build
    over files one of which has a malformed date fails, whatever the other
    files, the required keys and the configuration; a build that succeeds
    hands on every post, in chronological order, with a date of the
    calendar. *)
Theorem post_dates_valid :
  (forall f, In f posts ->
     exists s d,
       date_string f = Some s /\ parse_date s = Some d /\ valid_date d = true) /\
  map date_string posts = [ Some "2024-02-20"; Some "2024-07-03" ] /\
  (forall required cfg files f,
     In f files -> malformed_date f = true ->
     exists e, build required cfg files = Err e) /\
  (forall required cfg files pages,
     build required cfg files = Ok pages ->
     chronological pages /\
     length pages = length files /\
     Forall (fun p => valid_date (Page.date p) = true) pages).
Proof.
  split; [| split; [| split]].
  - intros f [<- | [<- | []]]; do 2 eexists; repeat split.
  - reflexivity.
  - intros required cfg files f. apply build_malformed.
  - intros required cfg files pages. apply build_ok.
Qed.

Lemma post_dates_valid_witness :
  (In parse_args_post posts /\
   exists s d,
     date_string parse_args_post = Some s /\
     parse_date s = Some d /\ valid_date d = true) /\
  (In misdated_post [ exhaustive_type_checking; misdated_post ] /\
   malformed_date misdated_post = true /\
   exists e,
     build [ "title" ] app_config [ exhaustive_type_checking; misdated_post ] = Err e) /\
  (exists pages,
     build [ "title" ] app_config (rev posts) = Ok pages /\
     map Page.path pages = map file_path posts /\
     chronological pages).
Proof.
  destruct post_dates_valid as [Hposts [_ [Hbad Hok]]].
  split; [| split].
  - split; [right; left; reflexivity | apply Hposts; right; left; reflexivity].
  - split; [right; left; reflexivity |].
    split; [reflexivity |].
    apply Hbad with misdated_post; [right; left; reflexivity | reflexivity].
  - destruct (build [ "title" ] app_config (rev posts)) as [pages | e] eqn:Hbuild.
    + exists pages. split; [reflexivity |].
      destruct (Hok _ _ _ _ Hbuild) as [Hsorted _].
      split; [| exact Hsorted].
      vm_compute in Hbuild. injection Hbuild as <-. reflexivity.
    + vm_compute in Hbuild. discriminate Hbuild.
Defined.

(** ** Menu *)

(** C8. The [menu] function returns the three entries as declared, in the
    declared order: Home at [/], Documentation at [/about], Archives at
    [/archives]. *)
Theorem menu_declared_order :
  SiteConfig.menu app_config tt =
    [ MenuEntry.mk "Home" "/";
      MenuEntry.mk "Documentation" "/about";
      MenuEntry.mk "Archives" "/archives" ] /\
  map MenuEntry.name (SiteConfig.menu app_config tt) =
    [ "Home"; "Documentation"; "Archives" ] /\
  map MenuEntry.path (SiteConfig.menu app_config tt) =
    [ "/"; "/about"; "/archives" ].
Proof. repeat split. Qed.

(** ** Build configuration *)

(** C9. The build configuration declares exactly three settings: the
    [extends] list with the core module before the theme module, the base
    path [/gmaisse.dev/] under [app], and the [compatibilityDate]
    2024-07-03; of these, [compatibilityDate] is the one the enumeration of
    the specification does not list. *)
Theorem nuxt_config_settings :
  keys nuxt_config = [ "extends"; "app"; "compatibilityDate" ] /\
  length nuxt_config = 3 /\
  lookup "extends" nuxt_config =
    Some (JArr [ "@bloggrify/core"; "@bloggrify/mistral" ]) /\
  lookup "app" nuxt_config = Some (JObj [ ("baseURL", JStr "/gmaisse.dev/") ]) /\
  lookup "compatibilityDate" nuxt_config = Some (JStr "2024-07-03") /\
  filter (fun k => negb (mem k spec_build_keys)) (keys nuxt_config) =
    [ "compatibilityDate" ].
Proof. repeat split. Qed.

(** ** Paths *)

(** C10. In the site configuration the logo, every author's avatar, every
    menu entry's path and every robots [Allow] entry begin with a slash;
    the cover of every post does not. *)
Theorem paths_root_relative :
  root_relative (SiteConfig.logo app_config) = true /\
  Forall (fun a => root_relative (Author.avatar a) = true)
         (SiteConfig.authors app_config) /\
  Forall (fun m => root_relative (MenuEntry.path m) = true)
         (SiteConfig.menu app_config tt) /\
  Forall (fun r => Forall (fun p => root_relative p = true) (Robots.Allow r))
         (SiteConfig.robots app_config) /\
  Forall (fun f => exists c, cover_path f = Some c /\ root_relative c = false)
         posts /\
  map cover_path posts =
    [ Some "covers/exhaustive-type-checking.jpg";
      Some "covers/node-parse-args.jpg" ].
Proof.
  split; [reflexivity |].
  split; [repeat constructor |].
  split; [repeat constructor |].
  split; [repeat constructor |].
  split; [| reflexivity].
  repeat constructor; eexists; split; reflexivity.
Qed.

(** * The code shown in the posts *)

(** ** The manual argument parser *)

Module ManualArgsFacts.
Import ManualArgs.

(** *** Objects *)

Lemma lookup_update (k k' : string) (v : value) (o : object) :
  lookup k' (update k v o) = if String.eqb k' k then Some v else lookup k' o.
Proof.
  induction o as [| [a b] rest IH]; simpl; [reflexivity |].
  destruct (String.eqb_spec k a) as [-> | Hka]; simpl.
  - destruct (String.eqb_spec k' a); reflexivity.
  - rewrite IH. destruct (String.eqb_spec k' a) as [-> | Hk'a]; [| reflexivity].
    destruct (String.eqb_spec a k) as [Heq | _]; [| reflexivity].
    exfalso. now apply Hka.
Qed.

Lemma lookup_assign (k k' : string) (v : value) (o : object) :
  lookup k' (assign k v o) =
    if String.eqb k "__proto__" then lookup k' o
    else if String.eqb k' k then Some v else lookup k' o.
Proof.
  unfold assign. destruct (String.eqb k "__proto__"); [reflexivity |].
  apply lookup_update.
Qed.

Lemma own_assign (k k' : string) (v : value) (o : object) :
  own k' (assign k v o) =
    own k' o || (negb (String.eqb k "__proto__") && String.eqb k' k).
Proof.
  unfold own. rewrite lookup_assign.
  destruct (String.eqb k "__proto__"); simpl.
  - now rewrite orb_false_r.
  - destruct (String.eqb k' k); [now rewrite orb_true_r | now rewrite orb_false_r].
Qed.

(** *** The three kinds of argument *)

Lemma prefix_String (a b : ascii) (p s : string) :
  String.prefix (String a p) (String b s) = Ascii.eqb a b && String.prefix p s.
Proof.
  change (String.prefix (String a p) (String b s))
    with (if ascii_dec a b then String.prefix p s else false).
  destruct (ascii_dec a b) as [-> | Hne].
  - now rewrite Ascii.eqb_refl.
  - apply Ascii.eqb_neq in Hne. now rewrite Hne.
Qed.

Lemma prefix_nil (s : string) : String.prefix EmptyString s = true.
Proof. now destruct s. Qed.

Lemma prefix_dashed (k : string) : String.prefix "--" (dashed k) = true.
Proof.
  change (dashed k) with (String "-" (String "-" k)).
  now rewrite !prefix_String, prefix_nil.
Qed.

Lemma slice_dashed (k : string) : slice 2 (dashed k) = k.
Proof. reflexivity. Qed.

Lemma dashed_inj (k k' : string) : dashed k = dashed k' -> k = k'.
Proof. unfold dashed. simpl. now intros [= ->]. Qed.

Lemma prefix_dashes (arg : string) :
  String.prefix "--" arg = true -> arg = dashed (slice 2 arg).
Proof.
  destruct arg as [| a [| b rest]]; try discriminate.
  - rewrite prefix_String, andb_false_r. discriminate.
  - rewrite !prefix_String, prefix_nil, andb_true_r.
    intros H. apply andb_true_iff in H. destruct H as [Ha Hb].
    apply Ascii.eqb_eq in Ha, Hb. now subst.
Qed.

Lemma prefix_dash_of_dashes (arg : string) :
  String.prefix "--" arg = true -> String.prefix "-" arg = true.
Proof.
  intros H. rewrite (prefix_dashes arg H).
  change (dashed (slice 2 arg)) with (String "-" (String "-" (slice 2 arg))).
  now rewrite prefix_String, prefix_nil.
Qed.

(** Every argument is of exactly one kind. *)
Lemma arg_kind (arg : string) :
  (String.prefix "--" arg = true /\ flag_group arg = false /\ positional arg = false) \/
  (String.prefix "--" arg = false /\ flag_group arg = true /\ positional arg = false) \/
  (String.prefix "--" arg = false /\ flag_group arg = false /\ positional arg = true).
Proof.
  unfold flag_group, positional.
  destruct (String.prefix "--" arg) eqn:H2.
  - left. rewrite (prefix_dash_of_dashes arg H2). now repeat split.
  - destruct (String.prefix "-" arg); [right; left | right; right]; now repeat split.
Qed.

Lemma flag_group_dashed (k : string) : flag_group (dashed k) = false.
Proof.
  unfold flag_group. rewrite prefix_dashed. apply andb_false_r.
Qed.

Lemma positional_dashed (k : string) : positional (dashed k) = false.
Proof.
  unfold positional.
  now rewrite (prefix_dash_of_dashes _ (prefix_dashed k)).
Qed.

(** *** One step *)

Lemma step_dashed (st : state) (k : string) :
  step st (dashed k) =
    {| flags := flags st;
       options := assign k VTrue (options st);
       currentOption := Name k |}.
Proof. unfold step. now rewrite prefix_dashed, slice_dashed. Qed.

Lemma step_flag_group (st : state) (arg : string) :
  flag_group arg = true ->
  step st arg =
    {| flags := set_flags (slice 1 arg) (flags st);
       options := options st;
       currentOption := currentOption st |}.
Proof.
  unfold flag_group, step. intros H. apply andb_true_iff in H.
  destruct H as [H1 H2]. apply negb_true_iff in H2. now rewrite H2, H1.
Qed.

Lemma step_positional (st : state) (arg : string) :
  positional arg = true ->
  step st arg =
    match currentOption st with
    | Name s =>
        if truthy (Name s) then
          {| flags := flags st;
             options := assign s (VString arg) (options st);
             currentOption := Null |}
        else st
    | _ => st
    end.
Proof.
  intros H. destruct (arg_kind arg) as [[_ [_ Hp]] | [[_ [_ Hp]] | [H2 _]]];
    try congruence.
  unfold positional in H. apply negb_true_iff in H.
  unfold step. now rewrite H2, H.
Qed.

Lemma step_positional_idle (st : state) (arg : string) :
  positional arg = true -> truthy (currentOption st) = false -> step st arg = st.
Proof.
  intros Hp Ht. rewrite (step_positional st arg Hp).
  destruct (currentOption st) as [| | s]; try reflexivity.
  now rewrite Ht.
Qed.

Lemma run_app (st : state) (a b : list string) :
  run st (a ++ b) = run (run st a) b.
Proof. apply fold_left_app. Qed.

Lemma run_cons (st : state) (arg : string) (a : list string) :
  run st (arg :: a) = run (step st arg) a.
Proof. reflexivity. Qed.

Lemma run_snoc (st : state) (a : list string) (arg : string) :
  run st (a ++ [arg]) = step (run st a) arg.
Proof. now rewrite run_app. Qed.

(** Names the text after the two dashes of [arg]. *)
Ltac name_of arg H n :=
  let Heq := fresh "Heq" in
  pose proof (prefix_dashes arg H) as Heq;
  set (n := slice 2 arg) in Heq; clearbody n; subst arg.

Lemma not_dashed (arg k : string) :
  String.prefix "--" arg = false -> arg <> dashed k.
Proof. intros H ->. rewrite prefix_dashed in H. discriminate. Qed.

Lemma in_snoc_not_dashed (args : list string) (arg k : string) :
  String.prefix "--" arg = false ->
  (In (dashed k) (args ++ [arg]) <-> In (dashed k) args).
Proof.
  intros H. rewrite in_app_iff. split; [| now left].
  intros [Hin | [Heq | []]]; [assumption |].
  exfalso. now apply (not_dashed arg k H).
Qed.

Lemma step_keeps_flags (st : state) (arg : string) :
  flag_group arg = false -> flags (step st arg) = flags st.
Proof.
  intros Hf. destruct (arg_kind arg) as [[H2 _] | [[_ [Hf' _]] | [_ [_ Hp]]]].
  - rewrite (prefix_dashes arg H2), step_dashed. reflexivity.
  - congruence.
  - rewrite (step_positional st arg Hp).
    destruct (currentOption st) as [| | s]; try reflexivity.
    now destruct (truthy (Name s)).
Qed.

(** *** What ends up in [options] *)

(** The loop invariant that ties [options] and [currentOption] to the
    arguments read so far. *)
Lemma run_init_options (args : list string) :
  (forall k, own k (options (run init args)) = true <->
             k <> "__proto__" /\ In (dashed k) args) /\
  (forall s, currentOption (run init args) = Name s -> In (dashed s) args).
Proof.
  induction args as [| arg args [IHk IHc]] using rev_ind.
  - split; [| discriminate].
    intros k. split; [discriminate | intros [_ []]].
  - rewrite run_snoc.
    destruct (arg_kind arg) as [[H2 _] | [[H2 [Hf _]] | [H2 [_ Hp]]]].
    + rewrite (prefix_dashes arg H2), step_dashed. simpl. split.
      * intros k. rewrite own_assign, orb_true_iff, andb_true_iff, negb_true_iff.
        rewrite IHk, in_app_iff, String.eqb_neq, String.eqb_eq. split.
        -- intros [[Hk Hin] | [Hn ->]]; split; auto.
           right. now left.
        -- intros [Hk [Hin | [Heq | []]]]; [now left |].
           apply dashed_inj in Heq. subst. now right.
      * intros s [= ->]. apply in_app_iff. right. now left.
    + rewrite (step_flag_group _ arg Hf). simpl. split.
      * intros k. now rewrite IHk, (in_snoc_not_dashed args arg k H2).
      * intros s Hs. apply in_app_iff. left. now apply IHc.
    + rewrite (step_positional _ arg Hp).
      destruct (currentOption (run init args)) as [| | s] eqn:Hcur.
      * split; [intros k; now rewrite IHk, (in_snoc_not_dashed args arg k H2) |].
        rewrite Hcur. discriminate.
      * split; [intros k; now rewrite IHk, (in_snoc_not_dashed args arg k H2) |].
        rewrite Hcur. discriminate.
      * destruct (truthy (Name s)); simpl.
        -- split; [| discriminate].
           intros k. rewrite own_assign, (in_snoc_not_dashed args arg k H2).
           rewrite <- IHk.
           destruct (String.eqb_spec s "__proto__") as [-> | Hs]; simpl.
           ++ now rewrite orb_false_r.
           ++ destruct (String.eqb_spec k s) as [-> | _];
                [| now rewrite orb_false_r].
              rewrite orb_true_r. split; [intros _ | reflexivity].
              apply IHk. split; [assumption | now apply IHc].
        -- split; [intros k; now rewrite IHk, (in_snoc_not_dashed args arg k H2) |].
           rewrite Hcur. intros s' [= <-].
           apply in_app_iff. left. now apply IHc.
Qed.

(** The own keys of [options] are exactly the texts that follow [--] in
    some argument, whole: nothing is cut at an equals sign, no argument of
    another kind adds a key, and [--__proto__] adds none. *)
Theorem options_keys (argv : list string) (k : string) :
  own k (options (parse argv)) = true <->
  k <> "__proto__" /\ In (dashed k) (skipn 2 argv).
Proof. apply run_init_options. Qed.

(** A value kept in [options] is an argument that starts with no dash, and
    it is kept under a name that is not empty. *)
Lemma run_init_values (args : list string) (k v : string) :
  lookup k (options (run init args)) = Some (VString v) ->
  k <> EmptyString /\ In v args /\ positional v = true.
Proof.
  revert k v. induction args as [| arg args IH] using rev_ind; intros k v.
  - discriminate.
  - rewrite run_snoc.
    assert (Hold : lookup k (options (run init args)) = Some (VString v) ->
                   k <> EmptyString /\ In v (args ++ [arg]) /\ positional v = true).
    { intros H. destruct (IH k v H) as [Hk [Hin Hp]].
      repeat split; try assumption. apply in_app_iff. now left. }
    destruct (arg_kind arg) as [[H2 _] | [[H2 [Hf _]] | [H2 [_ Hp]]]].
    + name_of arg H2 n. rewrite step_dashed. simpl.
      rewrite lookup_assign.
      destruct (String.eqb n "__proto__"); [exact Hold |].
      destruct (String.eqb k n); [discriminate | exact Hold].
    + rewrite (step_flag_group _ arg Hf). exact Hold.
    + rewrite (step_positional _ arg Hp).
      destruct (currentOption (run init args)) as [| | s]; try exact Hold.
      destruct (truthy (Name s)) eqn:Ht; [| exact Hold].
      simpl. rewrite lookup_assign.
      destruct (String.eqb s "__proto__"); [exact Hold |].
      destruct (String.eqb_spec k s) as [-> | _]; [| exact Hold].
      intros [= <-]. repeat split.
      * intros ->. discriminate Ht.
      * apply in_app_iff. right. now left.
      * exact Hp.
Qed.

(** Every string the script stores in [options] is one of the arguments,
    one that starts with no dash; its key is not empty, is not [__proto__],
    and was named by a [--] argument. *)
Theorem option_values_are_positionals (argv : list string) (k v : string) :
  lookup k (options (parse argv)) = Some (VString v) ->
  In v (skipn 2 argv) /\ positional v = true /\
  k <> EmptyString /\ k <> "__proto__" /\ In (dashed k) (skipn 2 argv).
Proof.
  intros H. destruct (run_init_values _ _ _ H) as [Hk [Hin Hp]].
  assert (Hown : own k (options (parse argv)) = true)
    by (unfold own; now rewrite H).
  apply (proj1 (run_init_options (skipn 2 argv))) in Hown.
  destruct Hown as [Hproto Hdashed].
  now repeat split.
Qed.

Lemma option_values_are_positionals_witness :
  lookup "name" (options (parse [ "node"; "cli.js"; "--name"; "John" ])) =
    Some (VString "John") /\
  In "John" [ "--name"; "John" ] /\ positional "John" = true.
Proof.
  split; [reflexivity |].
  destruct (option_values_are_positionals
              [ "node"; "cli.js"; "--name"; "John" ] "name" "John" eq_refl)
    as [Hin [Hp _]].
  split; [exact Hin | exact Hp].
Defined.

(** *** What ends up in [flags] *)

Lemma split_chars_not_proto (f group : string) :
  In f (split_chars group) -> String.eqb f "__proto__" = false.
Proof.
  unfold split_chars. rewrite in_map_iff. intros [c [<- _]].
  cbn [String.eqb]. apply andb_false_r.
Qed.

Lemma assign_all_lookup (ks : list string) (fl : object) (f : string) :
  (forall k, In k ks -> String.eqb k "__proto__" = false) ->
  lookup f (fold_left (fun acc flag => assign flag VTrue acc) ks fl) =
    if mem f ks then Some VTrue else lookup f fl.
Proof.
  revert fl. induction ks as [| k ks IH]; intros fl Hks; [reflexivity |].
  simpl fold_left. rewrite IH by (intros k' Hk'; apply Hks; now right).
  rewrite lookup_assign, (Hks k) by now left.
  unfold mem. simpl.
  destruct (String.eqb f k); simpl; [| reflexivity].
  now destruct (existsb (String.eqb f) ks).
Qed.

Lemma set_flags_lookup (group : string) (fl : object) (f : string) :
  lookup f (set_flags group fl) =
    if mem f (split_chars group) then Some VTrue else lookup f fl.
Proof.
  apply assign_all_lookup. intros k. apply split_chars_not_proto.
Qed.

Lemma run_init_flags (args : list string) (f : string) (v : value) :
  lookup f (flags (run init args)) = Some v <->
  v = VTrue /\
  exists arg, In arg args /\ flag_group arg = true /\
              In f (split_chars (slice 1 arg)).
Proof.
  revert f v. induction args as [| arg args IH] using rev_ind; intros f v.
  - split; [discriminate | intros [_ [arg [[] _]]]].
  - rewrite run_snoc. destruct (flag_group arg) eqn:Hf.
    + rewrite (step_flag_group _ arg Hf). cbn [flags]. rewrite set_flags_lookup.
      destruct (mem f (split_chars (slice 1 arg))) eqn:Hmem.
      * apply mem_In in Hmem. split.
        -- intros [= <-]. split; [reflexivity |].
           exists arg. repeat split; try assumption.
           apply in_app_iff. right. now left.
        -- now intros [-> _].
      * rewrite IH. split; intros [Hv [a [Hin [Ha Hchars]]]]; split; try assumption.
        -- exists a. repeat split; try assumption. apply in_app_iff. now left.
        -- exists a. repeat split; try assumption.
           apply in_app_iff in Hin. destruct Hin as [Hin | [<- | []]]; [assumption |].
           apply mem_In in Hchars. congruence.
    + rewrite (step_keeps_flags _ arg Hf), IH.
      split; intros [Hv [a [Hin [Ha Hchars]]]]; split; try assumption.
      * exists a. repeat split; try assumption. apply in_app_iff. now left.
      * exists a. repeat split; try assumption.
        apply in_app_iff in Hin. destruct Hin as [Hin | [<- | []]]; [assumption |].
        congruence.
Qed.

(** A flag is set exactly when its character follows the dash of some
    single-dash argument, and a flag is only ever [true]. *)
Theorem flags_spec (argv : list string) (f : string) (v : value) :
  lookup f (flags (parse argv)) = Some v <->
  v = VTrue /\
  exists arg, In arg (skipn 2 argv) /\ flag_group arg = true /\
              In f (split_chars (slice 1 arg)).
Proof. apply run_init_flags. Qed.

(** *** Flags and options do not interfere *)

Lemma step_options_congr (st st' : state) (arg : string) :
  options st = options st' -> currentOption st = currentOption st' ->
  options (step st arg) = options (step st' arg) /\
  currentOption (step st arg) = currentOption (step st' arg).
Proof.
  intros Ho Hc. unfold step.
  destruct (String.prefix "--" arg); simpl; [now rewrite Ho |].
  destruct (String.prefix "-" arg); simpl; [now split |].
  rewrite <- Hc.
  destruct (currentOption st) as [| | s] eqn:Hcur; try (split; congruence).
  destruct (negb (String.eqb s EmptyString)); simpl; split; congruence.
Qed.

Lemma run_flags_congr (args : list string) (st st' : state) :
  flags st = flags st' ->
  flags (run st args) = flags (run st' (filter flag_group args)).
Proof.
  revert st st'. induction args as [| arg args IH]; intros st st' Hfl; [exact Hfl |].
  simpl. destruct (flag_group arg) eqn:Hf; simpl; apply IH.
  - rewrite !(step_flag_group _ arg Hf). simpl. now rewrite Hfl.
  - now rewrite (step_keeps_flags _ arg Hf).
Qed.

Lemma run_options_congr (args : list string) (st st' : state) :
  options st = options st' -> currentOption st = currentOption st' ->
  options (run st args) =
    options (run st' (filter (fun a => negb (flag_group a)) args)) /\
  currentOption (run st args) =
    currentOption (run st' (filter (fun a => negb (flag_group a)) args)).
Proof.
  revert st st'. induction args as [| arg args IH]; intros st st' Ho Hc; [now split |].
  simpl. destruct (flag_group arg) eqn:Hf; simpl.
  - apply IH; rewrite (step_flag_group _ arg Hf); assumption.
  - destruct (step_options_congr st st' arg Ho Hc) as [Ho' Hc']. now apply IH.
Qed.

(** The flags are those of the single-dash arguments alone, and the options
    are those of the other arguments alone: a group of flags between an
    option and its value changes nothing for the option. *)
Theorem flags_options_independent (st : state) (args : list string) :
  flags (run st args) = flags (run st (filter flag_group args)) /\
  options (run st args) =
    options (run st (filter (fun a => negb (flag_group a)) args)) /\
  currentOption (run st args) =
    currentOption (run st (filter (fun a => negb (flag_group a)) args)).
Proof.
  split; [now apply run_flags_congr | now apply run_options_congr].
Qed.

(** *** Which value an option gets *)

Lemma run_flag_groups (st : state) (groups : list string) :
  Forall (fun a => flag_group a = true) groups ->
  options (run st groups) = options st /\
  currentOption (run st groups) = currentOption st.
Proof.
  intros Hg. revert st. induction Hg as [| g groups Hf _ IH]; intros st; [now split |].
  simpl. destruct (IH (step st g)) as [-> ->].
  now rewrite (step_flag_group _ g Hf).
Qed.

Lemma option_then_groups (st : state) (pre groups : list string) (n : string) :
  Forall (fun a => flag_group a = true) groups ->
  options (run st (pre ++ dashed n :: groups)) =
    assign n VTrue (options (run st pre)) /\
  currentOption (run st (pre ++ dashed n :: groups)) = Name n.
Proof.
  intros Hg. rewrite run_app, run_cons.
  destruct (run_flag_groups (step (run st pre) (dashed n)) groups Hg) as [-> ->].
  now rewrite step_dashed.
Qed.

Lemma option_then_value (st : state) (pre groups : list string) (n v : string) :
  n <> EmptyString -> n <> "__proto__" ->
  Forall (fun a => flag_group a = true) groups ->
  positional v = true ->
  lookup n (options (run st (pre ++ dashed n :: groups ++ [v]))) =
    Some (VString v) /\
  currentOption (run st (pre ++ dashed n :: groups ++ [v])) = Null.
Proof.
  intros Hne Hn Hg Hp.
  apply String.eqb_neq in Hne. apply String.eqb_neq in Hn.
  destruct (option_then_groups st pre groups n Hg) as [_ Hc].
  replace (pre ++ dashed n :: groups ++ [v])
    with ((pre ++ dashed n :: groups) ++ [v])
    by (now rewrite <- app_assoc).
  rewrite run_snoc, (step_positional _ v Hp), Hc.
  unfold truthy. rewrite Hne. simpl.
  split; [| reflexivity].
  now rewrite lookup_assign, Hn, String.eqb_refl.
Qed.

(** [--__proto__] stores nothing, with or without a value after it. *)
Lemma proto_option_idle (st : state) (pre groups : list string) :
  Forall (fun a => flag_group a = true) groups ->
  options (run st (pre ++ dashed "__proto__" :: groups)) = options (run st pre) /\
  (forall v, positional v = true ->
     options (run st (pre ++ dashed "__proto__" :: groups ++ [v])) =
       options (run st pre)).
Proof.
  intros Hg.
  destruct (option_then_groups st pre groups "__proto__" Hg) as [Ho Hc].
  split; [exact Ho |].
  intros v Hp.
  replace (pre ++ dashed "__proto__" :: groups ++ [v])
    with ((pre ++ dashed "__proto__" :: groups) ++ [v])
    by (now rewrite <- app_assoc).
  rewrite run_snoc, (step_positional _ v Hp), Hc. simpl. exact Ho.
Qed.

(** The last [--n] decides, for every [n] but [__proto__].  Followed by
    groups of flags only, it leaves [true] under [n], whatever [n] held
    before; when the first argument after it that is not a group of flags
    starts with no dash, that argument is the value, provided [n] is not
    empty.  [--__proto__] is the exception: it leaves [options] as it was,
    with or without a value after it. *)
Theorem last_option_decides (st : state) (pre groups : list string) (n : string) :
  Forall (fun a => flag_group a = true) groups ->
  (n <> "__proto__" ->
   lookup n (options (run st (pre ++ dashed n :: groups))) = Some VTrue) /\
  (forall v, n <> "__proto__" -> n <> EmptyString -> positional v = true ->
     lookup n (options (run st (pre ++ dashed n :: groups ++ [v]))) =
       Some (VString v) /\
     currentOption (run st (pre ++ dashed n :: groups ++ [v])) = Null) /\
  options (run st (pre ++ dashed "__proto__" :: groups)) = options (run st pre) /\
  (forall v, positional v = true ->
     options (run st (pre ++ dashed "__proto__" :: groups ++ [v])) =
       options (run st pre)) /\
  lookup "__proto__" (options (run init (pre ++ dashed "__proto__" :: groups))) = None.
Proof.
  intros Hg. split; [| split; [| split; [| split]]].
  - intros Hn. destruct (option_then_groups st pre groups n Hg) as [-> _].
    apply String.eqb_neq in Hn.
    now rewrite lookup_assign, Hn, String.eqb_refl.
  - intros v Hn Hne Hp. now apply option_then_value.
  - now apply proto_option_idle.
  - now apply proto_option_idle.
  - destruct (lookup "__proto__"
                (options (run init (pre ++ dashed "__proto__" :: groups))))
      as [x |] eqn:Hx; [| reflexivity].
    assert (Hown : own "__proto__"
                     (options (run init (pre ++ dashed "__proto__" :: groups))) = true)
      by (unfold own; now rewrite Hx).
    apply (proj1 (run_init_options _)) in Hown. destruct Hown as [Hne _].
    now elim Hne.
Qed.

Lemma last_option_decides_witness :
  lookup "name"
    (options (run init ([ "--name"; "Ann" ] ++ dashed "name" :: [ "-v"; "-xz" ]))) =
    Some VTrue /\
  lookup "name"
    (options (run init ([ "--name"; "Ann" ] ++ dashed "name" :: [ "-v"; "-xz" ] ++ [ "John" ]))) =
    Some (VString "John") /\
  options (run init ([ "--name"; "Ann" ] ++ dashed "__proto__" :: [ "-v"; "-xz" ] ++ [ "John" ])) =
    [ ("name", VString "Ann") ].
Proof.
  assert (Hn : "name" <> "__proto__") by discriminate.
  assert (Hg : Forall (fun a => flag_group a = true) [ "-v"; "-xz" ])
    by (repeat constructor).
  destruct (last_option_decides init [ "--name"; "Ann" ] [ "-v"; "-xz" ] "name" Hg)
    as [Htrue [Hvalue [_ [Hproto _]]]].
  split; [exact (Htrue Hn) |].
  split; [apply Hvalue; [exact Hn | discriminate | reflexivity] |].
  rewrite (Hproto "John" eq_refl). reflexivity.
Defined.

(** *** What is dropped *)

Lemma run_positionals_idle (st : state) (extra : list string) :
  truthy (currentOption st) = false ->
  Forall (fun a => positional a = true) extra ->
  run st extra = st.
Proof.
  intros Ht Hp. induction Hp as [| a extra Ha _ IH]; [reflexivity |].
  simpl. now rewrite (step_positional_idle st a Ha Ht).
Qed.

(** Arguments that start with no dash are dropped while no option waits for
    a value; an option that got its value does not wait for another.  So
    arguments before the first option, and all but the first after an
    option, leave no trace. *)
Theorem positionals_dropped (st : state) (args extra : list string) :
  truthy (currentOption (run st args)) = false ->
  Forall (fun a => positional a = true) extra ->
  run st (args ++ extra) = run st args /\
  (forall n v, positional v = true ->
     run st (args ++ dashed n :: v :: extra) = run st (args ++ [ dashed n; v ])).
Proof.
  intros Ht Hp. split.
  - rewrite run_app. now apply run_positionals_idle.
  - intros n v Hv.
    replace (args ++ dashed n :: v :: extra)
      with ((args ++ [ dashed n; v ]) ++ extra)
      by (now rewrite <- app_assoc).
    rewrite run_app. apply run_positionals_idle; [| exact Hp].
    rewrite run_app. simpl. rewrite step_dashed, (step_positional _ v Hv). simpl.
    destruct (negb (String.eqb n EmptyString)) eqn:Hempty; [reflexivity | exact Hempty].
Qed.

Lemma positionals_dropped_witness :
  parse [ "node"; "cli.js"; "in.txt"; "out.txt" ] = init /\
  run init ([] ++ dashed "name" :: "John" :: [ "Smith"; "Jr" ]) =
    run init ([] ++ [ dashed "name"; "John" ]).
Proof.
  assert (Ht : truthy (currentOption (run init [])) = false) by reflexivity.
  split.
  - apply (positionals_dropped init [] [ "in.txt"; "out.txt" ] Ht).
    repeat constructor.
  - apply (positionals_dropped init [] [ "Smith"; "Jr" ] Ht);
      [repeat constructor | reflexivity].
Defined.

(** A bare [--] is read as an option with an empty name.  It holds [true]
    and never a value: the argument after it, when it starts with no dash,
    is dropped, groups of flags in between or not. *)
Theorem bare_dashes_take_no_value (st : state) (pre groups rest : list string) (v : string) :
  Forall (fun a => flag_group a = true) groups ->
  positional v = true ->
  run st (pre ++ "--" :: groups ++ v :: rest) = run st (pre ++ "--" :: groups ++ rest) /\
  lookup EmptyString (options (run st (pre ++ "--" :: groups ++ [v]))) = Some VTrue.
Proof.
  intros Hg Hv.
  destruct (option_then_groups st pre groups EmptyString Hg) as [Ho Hc].
  change (dashed EmptyString) with "--" in Ho, Hc.
  assert (Hidle : step (run st (pre ++ "--" :: groups)) v = run st (pre ++ "--" :: groups)).
  { apply step_positional_idle; [exact Hv | now rewrite Hc]. }
  split.
  - replace (pre ++ "--" :: groups ++ v :: rest)
      with ((pre ++ "--" :: groups) ++ v :: rest)
      by (now rewrite <- app_assoc).
    replace (pre ++ "--" :: groups ++ rest)
      with ((pre ++ "--" :: groups) ++ rest)
      by (now rewrite <- app_assoc).
    rewrite (run_app st (pre ++ "--" :: groups) (v :: rest)).
    rewrite (run_app st (pre ++ "--" :: groups) rest).
    now rewrite run_cons, Hidle.
  - replace (pre ++ "--" :: groups ++ [v])
      with ((pre ++ "--" :: groups) ++ [v])
      by (now rewrite <- app_assoc).
    rewrite run_snoc, Hidle, Ho. now rewrite lookup_assign.
Qed.

Lemma bare_dashes_take_no_value_witness :
  run init ([ "-v" ] ++ "--" :: [ "-q" ] ++ "file.txt" :: [ "--force" ]) =
    run init ([ "-v" ] ++ "--" :: [ "-q" ] ++ [ "--force" ]) /\
  lookup EmptyString (options (run init ([ "-v" ] ++ "--" :: [ "-q" ] ++ [ "file.txt" ]))) =
    Some VTrue.
Proof.
  apply (bare_dashes_take_no_value init [ "-v" ] [ "-q" ] [ "--force" ] "file.txt").
  - repeat constructor.
  - reflexivity.
Defined.

(** *** Nothing is removed *)

Lemma own_set_flags (group : string) (fl : object) (f : string) :
  own f fl = true -> own f (set_flags group fl) = true.
Proof.
  unfold own. rewrite set_flags_lookup.
  now destruct (mem f (split_chars group)).
Qed.

(** Once a flag or an option is set, no later argument removes it. *)
Theorem keys_never_removed (st : state) (args : list string) (k : string) :
  (own k (flags st) = true -> own k (flags (run st args)) = true) /\
  (own k (options st) = true -> own k (options (run st args)) = true).
Proof.
  revert st. induction args as [| arg args IH]; intros st; [now split |].
  simpl. destruct (IH (step st arg)) as [IHf IHo].
  split; intros H; [apply IHf | apply IHo]; clear IHf IHo.
  - destruct (flag_group arg) eqn:Hf.
    + rewrite (step_flag_group _ arg Hf). simpl. now apply own_set_flags.
    + now rewrite (step_keeps_flags _ arg Hf).
  - unfold step.
    destruct (String.prefix "--" arg); simpl;
      [rewrite own_assign, H; reflexivity |].
    destruct (String.prefix "-" arg); simpl; [exact H |].
    destruct (currentOption st) as [| | s]; try exact H.
    destruct (negb (String.eqb s EmptyString)); simpl; [| exact H].
    now rewrite own_assign, H.
Qed.

Lemma keys_never_removed_witness :
  own "v" (flags (run init [ "-v" ])) = true /\
  own "v" (flags (run (run init [ "-v" ]) [ "--name"; "-x"; "John"; "--" ])) = true.
Proof.
  split; [reflexivity |].
  apply (keys_never_removed (run init [ "-v" ]) [ "--name"; "-x"; "John"; "--" ] "v").
  reflexivity.
Defined.

(** *** Options do not disturb each other *)

Lemma run_keeps_option (st : state) (post : list string) (n : string) :
  currentOption st <> Name n ->
  ~ In (dashed n) post ->
  lookup n (options (run st post)) = lookup n (options st).
Proof.
  revert st. induction post as [| arg post IH]; intros st Hc Hnot; [reflexivity |].
  rewrite run_cons.
  assert (Hpost : ~ In (dashed n) post) by (intros Hin; apply Hnot; now right).
  assert (Harg : arg <> dashed n) by (intros ->; apply Hnot; now left).
  destruct (arg_kind arg) as [[H2 _] | [[_ [Hf _]] | [_ [_ Hp]]]].
  - name_of arg H2 m.
    assert (Hmn : m <> n) by (intros ->; now apply Harg).
    rewrite IH; [| rewrite step_dashed; simpl; congruence | exact Hpost].
    rewrite step_dashed. simpl. rewrite lookup_assign.
    destruct (String.eqb m "__proto__"); [reflexivity |].
    destruct (String.eqb_spec n m) as [-> | _]; [now elim Hmn | reflexivity].
  - rewrite IH; [| now rewrite (step_flag_group _ arg Hf) | exact Hpost].
    now rewrite (step_flag_group _ arg Hf).
  - rewrite (step_positional _ arg Hp).
    destruct (currentOption st) as [| | s] eqn:Hcur; try now apply IH; try rewrite Hcur.
    destruct (truthy (Name s)); [| apply IH; [now rewrite Hcur | exact Hpost]].
    rewrite IH; [| discriminate | exact Hpost].
    simpl. rewrite lookup_assign.
    destruct (String.eqb s "__proto__"); [reflexivity |].
    destruct (String.eqb_spec n s) as [-> | _]; [now elim Hc | reflexivity].
Qed.

(** What [options] holds under [n] changes only at an argument [--n] or
    while [n] waits for its value.  So the value an option got stays,
    whatever follows, as long as [--n] does not come again. *)
Theorem option_value_stays (st : state) (pre groups post : list string) (n v : string) :
  n <> EmptyString -> n <> "__proto__" ->
  Forall (fun a => flag_group a = true) groups ->
  positional v = true ->
  ~ In (dashed n) post ->
  lookup n (options (run st (pre ++ dashed n :: groups ++ v :: post))) =
    Some (VString v).
Proof.
  intros Hne Hn Hg Hv Hpost.
  destruct (option_then_value st pre groups n v Hne Hn Hg Hv) as [Hlookup Hcur].
  replace (pre ++ dashed n :: groups ++ v :: post)
    with ((pre ++ dashed n :: groups ++ [v]) ++ post)
    by (rewrite <- app_assoc; simpl; now rewrite <- app_assoc).
  rewrite run_app, run_keeps_option; [exact Hlookup | | exact Hpost].
  rewrite Hcur. discriminate.
Qed.

Lemma option_value_stays_witness :
  lookup "name"
    (options (parse ([ "node"; "cli.js" ] ++ dashed "name" :: [ "-v" ] ++
                     "John" :: [ "--age"; "30"; "-x"; "rest" ]))) =
    Some (VString "John").
Proof.
  apply (option_value_stays init [] [ "-v" ] [ "--age"; "30"; "-x"; "rest" ] "name" "John").
  - discriminate.
  - discriminate.
  - repeat constructor.
  - reflexivity.
  - intros [H | [H | [H | [H | []]]]]; discriminate H.
Defined.

End ManualArgsFacts.

(** ** The exhaustive switch *)

Module ExhaustiveFacts.
Import Exhaustive.

Section Handling.

Variable number : Type.

Lemma assertNever_throws (content : object number) :
  assertNever number content <> Normal.
Proof. unfold assertNever. now destruct (to_string number content). Qed.

(** [handleContent] returns exactly for the contents tagged [text] or
    [image].  For every other content it throws, and what it throws tells
    nothing about the content: the message is the same for all of them,
    whatever their tag and properties. *)
Theorem handleContent_unhandled (content : object number) :
  (handleContent number content = Normal <->
   lookup "type" content = Some (Str number "text") \/
   lookup "type" content = Some (Str number "image")) /\
  (handleContent number content <> Normal ->
   mem "toString" (keys content) = false ->
   handleContent number content =
     Throw (Error "Unhandled value: [object Object]")).
Proof.
  assert (Hnever : mem "toString" (keys content) = false ->
                   assertNever number content =
                     Throw (Error "Unhandled value: [object Object]")).
  { intros H. unfold assertNever, to_string. now rewrite H. }
  unfold handleContent.
  destruct (lookup "type" content) as [[| | b | x | t] |];
    try (split;
         [ split; [intros H; now apply assertNever_throws in H
                  | intros [H | H]; discriminate H]
         | intros _; exact Hnever ]).
  destruct (String.eqb_spec t "text") as [-> | Htext].
  - split; [split; [now left | reflexivity] | intros H; now elim H].
  - destruct (String.eqb_spec t "image") as [-> | Himage].
    + split; [split; [now right | reflexivity] | intros H; now elim H].
    + split; [| intros _; exact Hnever].
      split; [intros H; now apply assertNever_throws in H |].
      intros [[= ->] | [= ->]]; [now elim Htext | now elim Himage].
Qed.

End Handling.

Lemma handleContent_unhandled_witness :
  handleContent nat
    [ ("type", Str nat "video");
      ("url", Str nat "https://example.org/clip.mp4");
      ("duration", Number nat 12) ] =
    Throw (Error "Unhandled value: [object Object]").
Proof.
  apply handleContent_unhandled; [discriminate | reflexivity].
Defined.

End ExhaustiveFacts.
